(** * Verification of the quirky_binder Cap'n Proto state client (src/main.rs)

    Shallow embedding of the pieces of [src/main.rs] that the specification
    talks about:
    - [node_name_to_dot_id] and the DOT description written by the
      [update_graph] closure of [state_poller];
    - [dot_to_svg] together with the stdio plumbing of the child process;
    - the argument handling at the top of [state_poller];
    - the [futures::select!] race between one update cycle and the
      cancellation token, as a step function of the poller task;
    - the [std::sync::mpsc::sync_channel] that links the poller thread to
      the [SvgViewer] consumer.

    Rust [String]s are byte strings holding UTF-8 (Rocq [string]); raw
    bytes are [list byte]; [u32]/[u64] values are [N]. A Rust panic is the
    [None] of an [option]. *)

From Stdlib Require Import Strings.String Strings.Ascii Strings.Byte.
From stdpp Require Import base gmap strings list.

Open Scope string_scope.

(* ------------------------------------------------------------------ *)
(** ** Text helpers *)

Definition dq : string := String (ascii_of_nat 34) EmptyString.
Definition bslash : string := String (ascii_of_nat 92) EmptyString.
Definition nl : string := String (ascii_of_nat 10) EmptyString.

(** [fold_right String.append]: the concatenation of successive
    [write!]s into one [String]. *)
Fixpoint cat (l : list string) : string :=
  match l with
  | [] => ""
  | s :: r => s ++ cat r
  end.

(** Decimal rendering of an unsigned integer ([u64::to_string]). The fuel
    [S (N.size_nat n)] bounds the number of decimal digits. *)
Fixpoint dec_aux (fuel : nat) (n : N) (acc : string) : string :=
  match fuel with
  | O => acc
  | S f =>
      let acc' := String (ascii_of_N (48 + N.modulo n 10)) acc in
      let q := N.div n 10 in
      if (q =? 0)%N then acc' else dec_aux f q acc'
  end.

Definition u64_to_string (n : N) : string := dec_aux (S (N.size_nat n)) n "".

(** Substring test, used to state what a description contains. *)
Fixpoint is_prefix (p s : string) : bool :=
  match p, s with
  | EmptyString, _ => true
  | String a p', String b s' => Ascii.eqb a b && is_prefix p' s'
  | String _ _, EmptyString => false
  end.

Fixpoint contains (s sub : string) : bool :=
  is_prefix sub s ||
  match s with
  | EmptyString => false
  | String _ s' => contains s' sub
  end.

(* ------------------------------------------------------------------ *)
(** ** node_name_to_dot_id (main.rs, lines 30-32)

    The Rust code formats the name between two escaped double quote
    characters and adds nothing else: no character of the name is
    escaped. *)

Definition node_name_to_dot_id (name : string) : string := dq ++ name ++ dq.

(* ------------------------------------------------------------------ *)
(** ** Data received from the [state] service

    [graph()] gives node names and edges with port indices (u32);
    [node_statuses()] gives, per reporting node, its [output_written] and
    [input_read] counters (u64). Names are the [&str]s obtained by
    [get_..._name()?.to_str()?]; the capnp decoding errors of those calls
    are outside the model. *)

Record Edge := mkEdge {
  tail_name : string;
  tail_index : N;
  head_name : string;
  head_index : N
}.

Record Graph := mkGraph {
  graph_nodes : list string;
  graph_edges : list Edge
}.

Record NodeStatus := mkNodeStatus {
  node_name : string;
  output_written : list N;
  input_read : list N
}.

(** [statuses.into_iter().map(|s| (name, s)).collect::<BTreeMap<_, _>>()]:
    each entry is inserted in order, a later status with the same name
    replacing an earlier one. Only [get] is used on the map, so its key
    order plays no role. *)
Definition collect_statuses (l : list NodeStatus) : gmap string NodeStatus :=
  fold_left (fun m s => <[node_name s := s]> m) l ∅.

(** [primitive_list::Reader::get(index)] of capnp asserts
    [index < self.len()]: out of range it panics ([None]). *)
Definition list_get (l : list N) (i : N) : option N :=
  nth_error l (N.to_nat i).

(** [statuses.get(name).map(|s| Ok(sel(s)?.get(index))).transpose()?]:
    [Some None] when the node does not report, [Some (Some n)] for its
    counter, [None] for the panic of [get]. *)
Definition endpoint_counter (m : gmap string NodeStatus) (name : string)
    (sel : NodeStatus -> list N) (idx : N) : option (option N) :=
  match m !! name with
  | None => Some None
  | Some s =>
      match list_get (sel s) idx with
      | Some n => Some (Some n)
      | None => None
      end
  end.

(** [tail_counter.map(|n| ("taillabel", n.to_string())).into_iter()
      .chain(head_counter.map(|n| ("headlabel", n.to_string())))] *)
Definition edge_attrs (tc hc : option N) : list (string * string) :=
  match tc with Some n => [("taillabel", u64_to_string n)] | None => [] end ++
  match hc with Some n => [("headlabel", u64_to_string n)] | None => [] end.

(** The [for (i, (attr, val)) in ... .enumerate()] loop: a newline before
    the first attribute, [", "] before the others, each attribute written
    by a [writeln!] as [attr], the text [ = ], [val] between double quote
    characters, and a newline. *)
Fixpoint render_attrs_from (i : nat) (al : list (string * string)) : string :=
  match al with
  | [] => ""
  | (attr, val) :: r =>
      (if Nat.ltb 0 i then ", " else nl) ++
      attr ++ " = " ++ dq ++ val ++ dq ++ nl ++ render_attrs_from (S i) r
  end.

(** One edge statement: [write!("{} -> {} [")], the attributes, then
    [writeln!("]")]. *)
Definition edge_stmt (e : Edge) (al : list (string * string)) : string :=
  node_name_to_dot_id (tail_name e) ++ " -> " ++
  node_name_to_dot_id (head_name e) ++ " [" ++
  render_attrs_from 0 al ++ "]" ++ nl.

Definition write_edge (m : gmap string NodeStatus) (e : Edge) : option string :=
  match endpoint_counter m (tail_name e) output_written (tail_index e) with
  | None => None
  | Some tc =>
      match endpoint_counter m (head_name e) input_read (head_index e) with
      | None => None
      | Some hc => Some (edge_stmt e (edge_attrs tc hc))
      end
  end.

Fixpoint write_edges (m : gmap string NodeStatus) (es : list Edge) : option string :=
  match es with
  | [] => Some ""
  | e :: r =>
      match write_edge m e with
      | None => None
      | Some s =>
          match write_edges m r with
          | None => None
          | Some t => Some (s ++ t)
          end
      end
  end.

(** [for node in nodes { writeln!("{}", node_name_to_dot_id(name)) }] *)
Definition write_nodes (ns : list string) : string :=
  cat (map (fun n => node_name_to_dot_id n ++ nl) ns).

(** The DOT text built by [update_graph] (main.rs, lines 94-160) from the
    graph and the status list of one cycle; [None] when it panics.
    [write!] into a [String] never fails, so its [?]s are no-ops. *)
Definition build_description (g : Graph) (l : list NodeStatus) : option string :=
  let m := collect_statuses l in
  match write_edges m (graph_edges g) with
  | None => None
  | Some es => Some ("digraph G {" ++ nl ++ write_nodes (graph_nodes g) ++ es ++ "}" ++ nl)
  end.

(* Scenario of the specification: nodes A, B; edge A:0 -> B:0. *)
Definition graph_AB : Graph := mkGraph ["A"; "B"] [mkEdge "A" 0 "B" 0].
Definition statuses_AB : list NodeStatus :=
  [mkNodeStatus "A" [5%N] []; mkNodeStatus "B" [] [3%N]].

(** The description the code builds for that scenario. *)
Definition description_AB : string :=
  "digraph G {" ++ nl ++ dq ++ "A" ++ dq ++ nl ++ dq ++ "B" ++ dq ++ nl ++
  dq ++ "A" ++ dq ++ " -> " ++ dq ++ "B" ++ dq ++ " [" ++ nl ++
  "taillabel = " ++ dq ++ "5" ++ dq ++ nl ++
  ", headlabel = " ++ dq ++ "3" ++ dq ++ nl ++ "]" ++ nl ++ "}" ++ nl.

Example dec_1234 : u64_to_string 1234 = "1234". Proof. reflexivity. Qed.
Example dec_0 : u64_to_string 0 = "0". Proof. reflexivity. Qed.
Example build_AB_some : build_description graph_AB statuses_AB <> None.
Proof. vm_compute. congruence. Qed.

(* ------------------------------------------------------------------ *)
(** ** Quoted identifiers in the DOT grammar

    Graphviz's lexer (scan.l, state [qstring]): after the opening double
    quote, a backslash followed by a double quote stands for a quote
    inside the string, a lone backslash is
    ordinary text, and an unescaped double quote closes the string.
    [scan_qstring] returns what follows the closing quote, [None] if the
    string is never closed. *)

Fixpoint scan_qstring (s : string) : option string :=
  match s with
  | EmptyString => None
  | String c r =>
      if Ascii.eqb c (ascii_of_nat 34) then Some r
      else if Ascii.eqb c (ascii_of_nat 92) then
        match r with
        | String c2 r2 =>
            if Ascii.eqb c2 (ascii_of_nat 34) then scan_qstring r2 else scan_qstring r
        | EmptyString => None
        end
      else scan_qstring r
  end.

(** A string is one well-formed quoted DOT identifier when it opens with a
    double quote and its closing quote is its last character. *)
Definition dot_quoted_id_ok (s : string) : bool :=
  match s with
  | String c r =>
      Ascii.eqb c (ascii_of_nat 34) &&
      match scan_qstring r with Some EmptyString => true | _ => false end
  | EmptyString => false
  end.

(* ------------------------------------------------------------------ *)
(** ** Edge labels in a built description *)

(** The values of the attributes named [k] in an attribute list. *)
Definition labels (k : string) (al : list (string * string)) : list string :=
  map snd (List.filter (fun p => String.eqb (fst p) k) al).

(** What the specification asks of one endpoint of an edge: no label of
    kind [k] when the node has no status, otherwise exactly one, equal to
    the node's counter at the declared port. *)
Definition endpoint_label_ok (m : gmap string NodeStatus) (name : string)
    (sel : NodeStatus -> list N) (idx : N) (k : string)
    (al : list (string * string)) : Prop :=
  match m !! name with
  | None => labels k al = []
  | Some s => exists n, nth_error (sel s) (N.to_nat idx) = Some n /\
                        labels k al = [u64_to_string n]
  end.

Definition edge_labels_ok (m : gmap string NodeStatus)
    (p : Edge * list (string * string)) : Prop :=
  endpoint_label_ok m (tail_name p.1) output_written (tail_index p.1) "taillabel" p.2 /\
  endpoint_label_ok m (head_name p.1) input_read (head_index p.1) "headlabel" p.2.

(* ------------------------------------------------------------------ *)
(** ** Lemmas on the description builder *)

Lemma write_edge_shape (m : gmap string NodeStatus) (e : Edge) (s : string) :
  write_edge m e = Some s ->
  exists al, s = edge_stmt e al /\ edge_labels_ok m (e, al).
Proof.
  unfold write_edge, endpoint_counter.
  destruct (m !! tail_name e) as [st|] eqn:Ht;
  [destruct (list_get (output_written st) (tail_index e)) as [nt|] eqn:Hnt; [|discriminate]|];
  destruct (m !! head_name e) as [sh|] eqn:Hh;
  try (destruct (list_get (input_read sh) (head_index e)) as [nh|] eqn:Hnh; [|discriminate]);
  intros Hs; injection Hs as <-; eexists; split; try reflexivity;
  unfold edge_labels_ok, endpoint_label_ok; simpl; rewrite ?Ht, ?Hh;
  split; try reflexivity; eexists; split; eauto.
Qed.

Lemma write_edges_shape (m : gmap string NodeStatus) (es : list Edge) (t : string) :
  write_edges m es = Some t ->
  exists eals, map fst eals = es /\ Forall (edge_labels_ok m) eals /\
               t = cat (map (fun p => edge_stmt p.1 p.2) eals).
Proof.
  revert t. induction es as [|e r IH]; intros t H; simpl in H.
  - injection H as <-. exists []. repeat split; constructor.
  - destruct (write_edge m e) as [s|] eqn:He; [|discriminate].
    destruct (write_edges m r) as [t'|] eqn:Hr; [|discriminate].
    injection H as <-.
    destruct (write_edge_shape m e s He) as (al & -> & Hal).
    destruct (IH t' eq_refl) as (eals & Hfst & Hok & ->).
    exists ((e, al) :: eals). simpl. rewrite Hfst. repeat split; auto.
Qed.

Lemma write_edges_panic (m : gmap string NodeStatus) (es : list Edge) (e : Edge) :
  In e es -> write_edge m e = None -> write_edges m es = None.
Proof.
  induction es as [|e' r IH]; simpl; [contradiction|].
  intros [<- | Hin] He.
  - rewrite He. reflexivity.
  - destruct (write_edge m e'); [|reflexivity].
    rewrite (IH Hin He). reflexivity.
Qed.

(** Names with neither a double quote nor a backslash become well-formed
    quoted identifiers. *)
Lemma scan_qstring_plain (name rest : string) :
  (forall i c, String.get i name = Some c ->
     c <> ascii_of_nat 34 /\ c <> ascii_of_nat 92) ->
  scan_qstring (name ++ String (ascii_of_nat 34) rest) = Some rest.
Proof.
  induction name as [|c r IH]; intros H; [reflexivity|].
  destruct (H 0 c eq_refl) as [H1 H2].
  simpl. apply Ascii.eqb_neq in H1, H2. rewrite H1, H2.
  apply IH. intros i c' Hi. exact (H (S i) c' Hi).
Qed.

Lemma node_name_to_dot_id_plain (name : string) :
  (forall i c, String.get i name = Some c ->
     c <> ascii_of_nat 34 /\ c <> ascii_of_nat 92) ->
  dot_quoted_id_ok (node_name_to_dot_id name) = true.
Proof.
  intros H. unfold dot_quoted_id_ok, node_name_to_dot_id.
  change (dq ++ name ++ dq) with
    (String (ascii_of_nat 34) (name ++ String (ascii_of_nat 34) "")).
  cbv beta iota.
  rewrite (scan_qstring_plain name "" H). reflexivity.
Qed.

(* ------------------------------------------------------------------ *)
(** ** Claims on the description *)

(** The node name made of the letter a, a double quote character and the
    letter b. *)
Definition name_with_quote : string := "a" ++ dq ++ "b".

(** C1 (code bug). For the name a, double quote, b ([name_with_quote]),
    [node_name_to_dot_id] yields quote, a, quote, b, quote: the quoted DOT
    string closes right after a and the letter b and a quote are left
    over, so the emitted identifier is not a well-formed quoted DOT
    identifier, and the node statement of the description is malformed. *)
Theorem C1_node_name_to_dot_id_quote_unescaped :
  node_name_to_dot_id name_with_quote = dq ++ "a" ++ dq ++ "b" ++ dq /\
  dot_quoted_id_ok (node_name_to_dot_id name_with_quote) = false /\
  build_description (mkGraph [name_with_quote] []) [] =
    Some ("digraph G {" ++ nl ++ dq ++ "a" ++ dq ++ "b" ++ dq ++ nl ++ "}" ++ nl).
Proof. vm_compute. repeat split. Qed.

(** C2. Whenever the description of a cycle is produced, it consists of
    the header, one statement per node, one statement per edge (in the
    order of the graph's edges) and the closing brace; and in the
    attributes of each edge statement there is no tail label when the
    tail node has no status, and exactly one tail label, equal to the
    tail's [output_written] counter at the edge's tail port, when it has
    one (likewise for the head with [input_read] and the head port). *)
Theorem C2_labels_follow_snapshot (g : Graph) (l : list NodeStatus) (d : string) :
  build_description g l = Some d ->
  exists eals : list (Edge * list (string * string)),
    map fst eals = graph_edges g /\
    Forall (edge_labels_ok (collect_statuses l)) eals /\
    d = "digraph G {" ++ nl ++ write_nodes (graph_nodes g) ++
        cat (map (fun p => edge_stmt p.1 p.2) eals) ++ "}" ++ nl.
Proof.
  unfold build_description.
  destruct (write_edges (collect_statuses l) (graph_edges g)) as [es|] eqn:He;
    [|discriminate].
  intros Hd. injection Hd as <-.
  destruct (write_edges_shape _ _ _ He) as (eals & H1 & H2 & ->).
  exists eals. auto.
Qed.

Lemma C2_labels_follow_snapshot_witness :
  build_description graph_AB statuses_AB = Some description_AB /\
  exists eals : list (Edge * list (string * string)),
    map fst eals = graph_edges graph_AB /\
    Forall (edge_labels_ok (collect_statuses statuses_AB)) eals /\
    description_AB = "digraph G {" ++ nl ++ write_nodes (graph_nodes graph_AB) ++
        cat (map (fun p => edge_stmt p.1 p.2) eals) ++ "}" ++ nl.
Proof.
  split; [vm_compute; reflexivity|].
  apply C2_labels_follow_snapshot. vm_compute. reflexivity.
Defined.

(** The edge statement of the C5 scenario as the specification writes it:
    A -> B [taillabel=5, headlabel=3] with the values 5 and 3 between
    double quotes and no space around the equal signs. *)
Definition C5_spec_text : string :=
  "A -> B [taillabel=" ++ dq ++ "5" ++ dq ++ ", headlabel=" ++ dq ++ "3" ++ dq ++ "]".

(** The edge statement the code writes for the same scenario. *)
Definition C5_code_text : string :=
  dq ++ "A" ++ dq ++ " -> " ++ dq ++ "B" ++ dq ++ " [" ++ nl ++
  "taillabel = " ++ dq ++ "5" ++ dq ++ nl ++
  ", headlabel = " ++ dq ++ "3" ++ dq ++ nl ++ "]".

(** C5 (counterexample). For nodes A, B, edge A:0 -> B:0 and statuses
    A: out=[5], B: in=[3], the description does not contain the text
    [C5_spec_text] literally. *)
Lemma C5_literal_text_absent :
  exists d, build_description graph_AB statuses_AB = Some d /\
            contains d C5_spec_text = false.
Proof. eexists. split; [vm_compute; reflexivity | vm_compute; reflexivity]. Qed.

(** C5 (amended). For the same scenario the description contains the edge
    statement [C5_code_text]: quoted identifiers, the tail label 5 on its
    own line, then a comma and the head label 3 on the next line, with a
    space around each equal sign: the edge from A to B with tail label 5
    and head label 3. *)
Theorem C5_scenario_edge_statement :
  exists d, build_description graph_AB statuses_AB = Some d /\
            contains d C5_code_text = true.
Proof. eexists. split; [vm_compute; reflexivity | vm_compute; reflexivity]. Qed.

(** C9. If some edge's tail node reports an [output_written] list no longer
    than the tail port index (or its head node an [input_read] list no
    longer than the head port index), building the description panics:
    [build_description] yields [None], no description and no error. *)
Theorem C9_short_counter_list_panics (g : Graph) (l : list NodeStatus)
    (e : Edge) (st : NodeStatus) :
  In e (graph_edges g) ->
  (collect_statuses l !! tail_name e = Some st /\
     length (output_written st) <= N.to_nat (tail_index e)) \/
  (collect_statuses l !! head_name e = Some st /\
     length (input_read st) <= N.to_nat (head_index e)) ->
  build_description g l = None.
Proof.
  intros Hin Hshort. unfold build_description.
  rewrite (write_edges_panic _ _ e Hin); [reflexivity|].
  unfold write_edge, endpoint_counter, list_get.
  destruct Hshort as [[Ht Hlen] | [Hh Hlen]].
  - rewrite Ht, (proj2 (nth_error_None _ _) Hlen). reflexivity.
  - destruct (collect_statuses l !! tail_name e) as [s|];
      [destruct (nth_error (output_written s) _); [|reflexivity]|];
      rewrite Hh, (proj2 (nth_error_None _ _) Hlen); reflexivity.
Qed.

Lemma C9_short_counter_list_panics_witness :
  (collect_statuses [mkNodeStatus "A" [] []; mkNodeStatus "B" [] [3%N]] !! "A" =
     Some (mkNodeStatus "A" [] []) /\ length (@nil N) <= 0) /\
  build_description graph_AB [mkNodeStatus "A" [] []; mkNodeStatus "B" [] [3%N]] = None.
Proof.
  split; [split; [vm_compute; reflexivity | simpl; lia]|].
  apply (C9_short_counter_list_panics graph_AB _ (mkEdge "A" 0 "B" 0)
           (mkNodeStatus "A" [] [])).
  - simpl. left. reflexivity.
  - left. split; [vm_compute; reflexivity | simpl; lia].
Defined.

(* ------------------------------------------------------------------ *)
(** ** UTF-8 (std's [str::from_utf8] validation and [String::from_utf8_lossy])

    [utf8_chunk bs] looks at the sequence starting at the head of [bs]:
    [(true, k)] for a well-formed sequence of [k] bytes, [(false, k)] when
    the longest prefix of a well-formed sequence has [k] bytes and cannot
    be completed (std replaces those [k] bytes by one U+FFFD). *)

Definition byte_in (b : byte) (lo hi : nat) : bool :=
  Nat.leb lo (Byte.to_nat b) && Nat.leb (Byte.to_nat b) hi.

Fixpoint utf8_conts (k : nat) (r : list byte) (acc : nat) : bool * nat :=
  match k with
  | O => (true, acc)
  | S k' =>
      match r with
      | b :: r' => if byte_in b 128 191 then utf8_conts k' r' (S acc) else (false, acc)
      | [] => (false, acc)
      end
  end.

(** Lead byte followed by a second byte in [lo, hi] and then [k]
    continuation bytes. *)
Definition utf8_multi (lo hi k : nat) (r : list byte) : bool * nat :=
  match r with
  | b1 :: r1 => if byte_in b1 lo hi then utf8_conts k r1 2 else (false, 1)
  | [] => (false, 1)
  end.

Definition utf8_chunk (bs : list byte) : option (bool * nat) :=
  match bs with
  | [] => None
  | b :: r =>
      let n := Byte.to_nat b in
      Some (if Nat.leb n 127 then (true, 1)
      else if Nat.leb 194 n && Nat.leb n 223 then utf8_multi 128 191 0 r
      else if Nat.eqb n 224 then utf8_multi 160 191 1 r
      else if Nat.eqb n 237 then utf8_multi 128 159 1 r
      else if Nat.leb 225 n && Nat.leb n 239 then utf8_multi 128 191 1 r
      else if Nat.eqb n 240 then utf8_multi 144 191 2 r
      else if Nat.eqb n 244 then utf8_multi 128 143 2 r
      else if Nat.leb 241 n && Nat.leb n 243 then utf8_multi 128 191 2 r
      else (false, 1))
  end.

Definition replacement_char : list byte := [xef; xbf; xbd].

Fixpoint lossy_aux (fuel : nat) (bs : list byte) : list byte :=
  match fuel with
  | O => []
  | S f =>
      match utf8_chunk bs with
      | None => []
      | Some (true, k) => firstn k bs ++ lossy_aux f (skipn k bs)
      | Some (false, k) => replacement_char ++ lossy_aux f (skipn k bs)
      end
  end.

(** [String::from_utf8_lossy] (every chunk has at least one byte, so
    [length bs] steps suffice). *)
Definition from_utf8_lossy (bs : list byte) : string :=
  string_of_list_byte (lossy_aux (length bs) bs).

Fixpoint valid_aux (fuel : nat) (bs : list byte) : bool :=
  match fuel with
  | O => true
  | S f =>
      match utf8_chunk bs with
      | None => true
      | Some (true, k) => valid_aux f (skipn k bs)
      | Some (false, _) => false
      end
  end.

(** [OsString::into_string] succeeds exactly on valid UTF-8. *)
Definition utf8_valid (bs : list byte) : bool := valid_aux (length bs) bs.

Example lossy_ascii : from_utf8_lossy (list_byte_of_string "bad input") = "bad input".
Proof. reflexivity. Qed.
Example lossy_bad : from_utf8_lossy [x61; xff; x62] = string_of_list_byte [x61; xef; xbf; xbd; x62].
Proof. reflexivity. Qed.
Example valid_e9 : utf8_valid [xc3; xa9] = true. Proof. reflexivity. Qed.
Example invalid_ff : utf8_valid [xff] = false. Proof. reflexivity. Qed.

(* ------------------------------------------------------------------ *)
(** ** dot_to_svg (main.rs, lines 34-55)

    [smol::process::Command] keeps one stdio setting per stream; each is
    inherited from the parent unless set. [spawn] creates a pipe for the
    streams set to [Stdio::piped()]. [Child::output] drops stdin, reads the
    piped stdout and stderr to the end (an absent pipe reads as empty) and
    waits for the exit status. A stream left inherited goes to the
    parent's own stream: here, the terminal of the client. *)

Inductive Stdio := Inherit | Piped | NullIo.

Record Command := mkCommand {
  cmd_program : string;
  cmd_args : list string;
  cmd_stdin : Stdio;
  cmd_stdout : Stdio;
  cmd_stderr : Stdio
}.

Definition command_new (p : string) : Command := mkCommand p [] Inherit Inherit Inherit.
Definition command_arg (c : Command) (a : string) : Command :=
  mkCommand (cmd_program c) (cmd_args c ++ [a]) (cmd_stdin c) (cmd_stdout c) (cmd_stderr c).
Definition command_stdin (c : Command) (s : Stdio) : Command :=
  mkCommand (cmd_program c) (cmd_args c) s (cmd_stdout c) (cmd_stderr c).
Definition command_stdout (c : Command) (s : Stdio) : Command :=
  mkCommand (cmd_program c) (cmd_args c) (cmd_stdin c) s (cmd_stderr c).
Definition command_stderr (c : Command) (s : Stdio) : Command :=
  mkCommand (cmd_program c) (cmd_args c) (cmd_stdin c) (cmd_stdout c) s.

(** What the external [dot] program does on a given input: its exit code
    ([None] when killed by a signal) and what it writes on its standard
    output and standard error. *)
Record ChildRun := mkChildRun {
  child_exit : option Z;
  child_out : list byte;
  child_err : list byte
}.

(** The environment of the client: whether [dot] can be started, and its
    behaviour as a function of what it reads on stdin. *)
Record DotEnv := mkDotEnv {
  dot_found : bool;
  dot_run : list byte -> ChildRun
}.

Inductive IoError :=
| SpawnFailed
| IoOther (msg : string).

Definition exit_success (c : option Z) : bool :=
  match c with Some 0%Z => true | _ => false end.

Definition captured (s : Stdio) (bytes : list byte) : list byte :=
  match s with Piped => bytes | _ => [] end.

Definition to_terminal (s : Stdio) (bytes : list byte) : list byte :=
  match s with Inherit => bytes | _ => [] end.

Definition dot_command : Command :=
  command_stdout (command_stdin (command_arg (command_new "dot") "-Tsvg") Piped) Piped.

Definition dot_error_prefix : string :=
  "Erreur lors de l'ex√©cution de la commande dot : ".

(** The result of [dot_to_svg], paired with the bytes the child writes to
    the client's own standard error. *)
Definition dot_to_svg (env : DotEnv) (dot_source : string)
    : (string + IoError) * list byte :=
  let cmd := dot_command in
  if negb (dot_found env) then (inr SpawnFailed, [])
  else
    let run := dot_run env (list_byte_of_string dot_source) in
    let out := captured (cmd_stdout cmd) (child_out run) in
    let err := captured (cmd_stderr cmd) (child_err run) in
    let term := to_terminal (cmd_stderr cmd) (child_err run) in
    if exit_success (child_exit run) then (inl (from_utf8_lossy out), term)
    else (inr (IoOther (dot_error_prefix ++ from_utf8_lossy err)), term).

(** A [dot] that fails with status 1 and writes [bad input] on stderr. *)
Definition dot_env_bad_input : DotEnv :=
  mkDotEnv true (fun _ => mkChildRun (Some 1%Z) [] (list_byte_of_string "bad input")).

(** C8 (code bug). With a [dot] that exits with status 1 after writing
    [bad input] on its standard error, [dot_to_svg] fails with the message
    [dot_error_prefix] and nothing after it: stderr is never set to
    [Stdio::piped()], so [output.stderr] is empty and the text goes to the
    client's terminal instead of the error message. *)
Theorem C8_dot_error_lacks_stderr :
  exists msg,
    dot_to_svg dot_env_bad_input description_AB =
      (inr (IoOther msg), list_byte_of_string "bad input") /\
    msg = dot_error_prefix /\
    contains msg "bad input" = false.
Proof. eexists. vm_compute. repeat split. Qed.

(* ------------------------------------------------------------------ *)
(** ** std::sync::mpsc::sync_channel

    The bounded channel of [SvgViewer::new] ([sync_channel(1)]): a buffer
    of at most [bound] messages, one sender and one receiver. [send] puts
    the message in the buffer when there is room and blocks otherwise
    (until a [recv] frees a slot); it fails when the receiver is gone.
    [try_recv] takes the oldest message, and when the buffer is empty
    answers [Empty] while the sender lives and [Disconnected] once it has
    been dropped. Only bounds of at least one are modelled (the source
    uses 1); [sync_channel(0)] is a rendezvous channel. *)

Module Mpsc.

Record Chan (A : Type) := mkChan {
  ch_buf : list A;
  ch_bound : nat;
  ch_sender : bool;
  ch_receiver : bool
}.
Arguments mkChan {A}.
Arguments ch_buf {A}.
Arguments ch_bound {A}.
Arguments ch_sender {A}.
Arguments ch_receiver {A}.

Inductive SendResult (A : Type) :=
| SendOk (c : Chan A)
| SendBlocked
| SendErr (x : A).
Arguments SendOk {A}.
Arguments SendBlocked {A}.
Arguments SendErr {A}.

Inductive TryRecv (A : Type) :=
| RecvItem (x : A)
| RecvEmpty
| RecvDisconnected.
Arguments RecvItem {A}.
Arguments RecvEmpty {A}.
Arguments RecvDisconnected {A}.

Section Ops.
Context {A : Type}.

Definition sync_channel (bound : nat) : Chan A := mkChan [] bound true true.

Definition send (c : Chan A) (x : A) : SendResult A :=
  if negb (ch_receiver c) then SendErr x
  else if Nat.ltb (length (ch_buf c)) (ch_bound c)
  then SendOk (mkChan (ch_buf c ++ [x]) (ch_bound c) (ch_sender c) (ch_receiver c))
  else SendBlocked.

Definition try_recv (c : Chan A) : TryRecv A * Chan A :=
  match ch_buf c with
  | x :: r => (RecvItem x, mkChan r (ch_bound c) (ch_sender c) (ch_receiver c))
  | [] => (if ch_sender c then RecvEmpty else RecvDisconnected, c)
  end.

Definition drop_sender (c : Chan A) : Chan A :=
  mkChan (ch_buf c) (ch_bound c) false (ch_receiver c).

Definition drop_receiver (c : Chan A) : Chan A :=
  mkChan (ch_buf c) (ch_bound c) (ch_sender c) false.

(** What the two ends can do. A blocked [send] is not an operation: it
    waits, and it completes as a later [OpSend] once there is room. Once
    the sender is dropped nothing can be sent any more. *)
Inductive ChanOp :=
| OpSend (x : A)
| OpTryRecv
| OpDropSender
| OpDropReceiver.

Definition apply_op (c : Chan A) (op : ChanOp) : Chan A :=
  match op with
  | OpSend x =>
      if ch_sender c then
        match send c x with SendOk c' => c' | _ => c end
      else c
  | OpTryRecv => snd (try_recv c)
  | OpDropSender => drop_sender c
  | OpDropReceiver => drop_receiver c
  end.

Definition run_ops (c : Chan A) (ops : list ChanOp) : Chan A :=
  fold_left apply_op ops c.

End Ops.

End Mpsc.

Import Mpsc.

(* ------------------------------------------------------------------ *)
(** ** The channel part of SvgViewer::update (main.rs, lines 262-285)

    [now] is the current instant in seconds; [svg_parses] stands for the
    success of [usvg::Tree::from_data]. *)

Record Viewer := mkViewer {
  v_content : option string;   (* [None]: the logo; [Some svg]: a graph *)
  v_close_at : option nat
}.

Definition viewer_receive (svg_parses : string -> bool) (now : nat)
    (v : Viewer) (c : Chan string) : Viewer * Chan string :=
  match try_recv c with
  | (RecvItem svg, c') =>
      (mkViewer (if svg_parses svg then Some svg else v_content v) (v_close_at v), c')
  | (RecvEmpty, c') => (v, c')
  | (RecvDisconnected, c') =>
      let at_ := match v_close_at v with Some t => t | None => now + 60 end in
      (mkViewer (v_content v) (Some at_), c')
  end.

(* ------------------------------------------------------------------ *)
(** ** Lemmas on the channel *)

Lemma apply_op_bound {A} (c : Chan A) (op : ChanOp) :
  ch_bound (apply_op c op) = ch_bound c /\
  (length (ch_buf c) <= ch_bound c -> length (ch_buf (apply_op c op)) <= ch_bound c).
Proof.
  destruct op as [x| | |]; simpl.
  - destruct (ch_sender c); [|auto].
    unfold send. destruct (ch_receiver c); simpl; [|auto].
    destruct (Nat.ltb (length (ch_buf c)) (ch_bound c)) eqn:Hlt; simpl; [|auto].
    apply Nat.ltb_lt in Hlt. rewrite length_app. simpl. split; [reflexivity | lia].
  - unfold try_recv. destruct (ch_buf c) as [|y r] eqn:Hb; simpl; split;
      try reflexivity; rewrite ?Hb; simpl; lia.
  - auto.
  - auto.
Qed.

Lemma run_ops_bound {A} (ops : list (@ChanOp A)) : forall (c : Chan A),
  length (ch_buf c) <= ch_bound c ->
  ch_bound (run_ops c ops) = ch_bound c /\
  length (ch_buf (run_ops c ops)) <= ch_bound c.
Proof.
  unfold run_ops. induction ops as [|op r IH]; intros c H; simpl; [auto|].
  destruct (apply_op_bound c op) as [Hb Hl].
  destruct (IH (apply_op c op)) as [Hb' Hl']; [rewrite Hb; auto|].
  rewrite Hb', Hb. rewrite Hb in Hl'. auto.
Qed.

Lemma run_ops_after_drop {A} (ops : list (@ChanOp A)) : forall (c : Chan A),
  ch_sender c = false ->
  ch_sender (run_ops c ops) = false /\
  exists pre, ch_buf c = (pre ++ ch_buf (run_ops c ops))%list.
Proof.
  unfold run_ops. induction ops as [|op r IH]; intros c H; simpl.
  - split; [exact H|]. exists []. reflexivity.
  - assert (Hs : ch_sender (apply_op c op) = false /\
                 exists pre, ch_buf c = (pre ++ ch_buf (apply_op c op))%list).
    { destruct op as [x| | |]; simpl.
      - rewrite H. split; [exact H|]. exists []. reflexivity.
      - unfold try_recv. destruct (ch_buf c) as [|y l] eqn:Hb; simpl.
        + split; [exact H|]. exists []. rewrite Hb. reflexivity.
        + split; [exact H|]. exists [y]. reflexivity.
      - split; [reflexivity|]. exists []. reflexivity.
      - split; [exact H|]. exists []. reflexivity. }
    destruct Hs as [Hs [pre Hpre]].
    destruct (IH (apply_op c op) Hs) as [H1 [pre' Hpre']].
    split; [exact H1|]. exists (pre ++ pre')%list. rewrite Hpre, Hpre', app_assoc. reflexivity.
Qed.

(* ------------------------------------------------------------------ *)
(** ** Claims on the channel *)

(** C6. Starting from [sync_channel(1)], whatever the producer and the
    consumer do, the channel keeps bound 1 and never holds more than one
    undelivered message; a [send] while a message is still buffered
    blocks; and once the consumer has taken that message, a [send] goes
    through. *)
Theorem C6_single_slot_backpressure (ops : list (@ChanOp string)) (x : string) :
  let c := run_ops (sync_channel 1) ops in
  ch_bound c = 1 /\
  length (ch_buf c) <= 1 /\
  (ch_buf c <> [] -> ch_receiver c = true -> send c x = SendBlocked) /\
  (forall y c', try_recv c = (RecvItem y, c') -> ch_receiver c' = true ->
     exists c'', send c' x = SendOk c'').
Proof.
  intros c.
  destruct (run_ops_bound ops (sync_channel 1)) as [Hb Hl]; [simpl; lia|].
  fold c in Hb, Hl. simpl in Hb, Hl.
  split; [exact Hb|]. split; [exact Hl|]. split.
  - intros Hne Hr. unfold send. rewrite Hr, Hb. simpl.
    destruct (ch_buf c) as [|y [|z r]]; simpl in *; [contradiction | reflexivity | lia].
  - intros y c' Hrecv Hr. unfold try_recv in Hrecv.
    destruct (ch_buf c) as [|z r] eqn:Hbuf;
      [destruct (ch_sender c); inversion Hrecv|].
    injection Hrecv as <- <-.
    simpl in Hl.
    unfold send. simpl in *. rewrite Hr, Hb. simpl.
    destruct r; [eexists; reflexivity | simpl in Hl; lia].
Qed.

(** The channel left by a poller thread that has ended: sender dropped,
    nothing buffered. *)
Definition closed_chan : Chan string := drop_sender (sync_channel 1).

(** C4 (counterexample). On the channel of an ended poller, two successive
    [try_recv] both answer [Disconnected]: the closed signal is not given
    exactly once. *)
Lemma C4_closed_seen_twice :
  fst (try_recv closed_chan) = RecvDisconnected /\
  fst (try_recv (snd (try_recv closed_chan))) = RecvDisconnected.
Proof. split; reflexivity. Qed.

(** C4 (amended). Once the sender has been dropped, whatever happens next
    no message is ever added (the buffer only loses its oldest messages),
    and as soon as the buffer is empty [try_recv] answers [Disconnected],
    on that call and every later one, leaving the channel unchanged; the
    viewer then keeps the close deadline set by the first [Disconnected]
    (now + 60 s). *)
Theorem C4_closed_is_terminal (c : Chan string) (ops : list (@ChanOp string)) :
  ch_sender c = false ->
  let c' := run_ops c ops in
  (exists pre, ch_buf c = (pre ++ ch_buf c')%list) /\
  (ch_buf c' = [] ->
     try_recv c' = (RecvDisconnected, c') /\
     forall svg_parses now v,
       viewer_receive svg_parses now v c' =
         (mkViewer (v_content v)
            (Some (match v_close_at v with Some t => t | None => now + 60 end)), c')).
Proof.
  intros Hs c'.
  destruct (run_ops_after_drop ops c Hs) as [Hs' Hpre]. fold c' in Hs', Hpre.
  split; [exact Hpre|].
  intros He.
  assert (Ht : try_recv c' = (RecvDisconnected, c')).
  { unfold try_recv. rewrite He, Hs'. reflexivity. }
  split; [exact Ht|].
  intros svg_parses now v. unfold viewer_receive. rewrite Ht. reflexivity.
Qed.

Lemma C4_closed_is_terminal_witness :
  ch_sender (mkChan ["svg"] 1 false true) = false /\
  let c' := run_ops (mkChan ["svg"] 1 false true) [OpTryRecv; OpSend "late"; OpTryRecv] in
  (exists pre, ch_buf (mkChan ["svg"] 1 false true) = (pre ++ ch_buf c')%list) /\
  (ch_buf c' = [] ->
     try_recv c' = (RecvDisconnected, c') /\
     forall svg_parses now v,
       viewer_receive svg_parses now v c' =
         (mkViewer (v_content v)
            (Some (match v_close_at v with Some t => t | None => now + 60 end)), c')).
Proof.
  split; [reflexivity|].
  apply C4_closed_is_terminal. reflexivity.
Defined.

(* ------------------------------------------------------------------ *)
(** ** Start of state_poller: the process identifier (main.rs, lines 62-67)

    [std::env::args()] turns each OS argument into a [String] when it is
    asked for it and panics on one that is not valid Unicode. The first
    [next()] skips the program name; the second gives the pid text, or
    ["PID missing"] when there is none; [parse::<u32>()] then fails or
    yields the pid. *)

(** [u32::from_str]: an optional leading [+], then one or more decimal
    digits, with a value below 2^32. *)
Fixpoint parse_digits (s : string) (acc : N) : option N :=
  match s with
  | EmptyString => Some acc
  | String c r =>
      let d := N.of_nat (nat_of_ascii c) in
      if (48 <=? d)%N && (d <=? 57)%N then
        let acc' := (acc * 10 + (d - 48))%N in
        if (acc' <? 2 ^ 32)%N then parse_digits r acc' else None
      else None
  end.

Definition parse_u32 (s : string) : option N :=
  match s with
  | EmptyString => None
  | String c r =>
      if Ascii.eqb c "+"%char then
        match r with EmptyString => None | _ => parse_digits r 0 end
      else parse_digits s 0
  end.

Example parse_u32_ok : parse_u32 "4242" = Some 4242%N. Proof. reflexivity. Qed.
Example parse_u32_plus : parse_u32 "+7" = Some 7%N. Proof. reflexivity. Qed.
Example parse_u32_max : parse_u32 "4294967295" = Some 4294967295%N. Proof. reflexivity. Qed.
Example parse_u32_over : parse_u32 "4294967296" = None. Proof. reflexivity. Qed.
Example parse_u32_missing : parse_u32 "PID missing" = None. Proof. reflexivity. Qed.

(** [Args::next]: [None] (outer) is the panic on a non-Unicode argument. *)
Definition args_next (argv : list (list byte))
    : option (option string * list (list byte)) :=
  match argv with
  | [] => Some (None, [])
  | a :: r => if utf8_valid a then Some (Some (string_of_list_byte a), r) else None
  end.

Inductive PollerStart :=
| StartPanic                 (* [args()] panicked *)
| StartErr                   (* [parse()?] returned the error *)
| StartConnect (pid : N).    (* [connect(pid)] is attempted next *)

Definition state_poller_start (argv : list (list byte)) : PollerStart :=
  match args_next argv with
  | None => StartPanic
  | Some (_, rest) =>
      match args_next rest with
      | None => StartPanic
      | Some (a1, _) =>
          let s := match a1 with Some s => s | None => "PID missing" end in
          match parse_u32 s with
          | None => StartErr
          | Some pid => StartConnect pid
          end
      end
  end.

(** The poller thread of [SvgViewer::new] up to the connection: the
    sender is owned by [state_poller]; when it returns its error (or
    unwinds from the panic of [args()]), the sender is dropped before the
    thread ends. *)
Definition poller_thread_start (argv : list (list byte)) (c : Chan string)
    : PollerStart * Chan string :=
  match state_poller_start argv with
  | StartConnect pid => (StartConnect pid, c)
  | r => (r, drop_sender c)
  end.

(** The first argument is present and reads as a [u32]. *)
Definition first_arg_ok (argv : list (list byte)) : bool :=
  match argv with
  | _ :: a :: _ =>
      utf8_valid a && match parse_u32 (string_of_list_byte a) with
                      | Some _ => true | None => false end
  | _ => false
  end.

Lemma poller_thread_start_closes (argv : list (list byte)) :
  (forall pid, state_poller_start argv <> StartConnect pid) ->
  fst (try_recv (snd (poller_thread_start argv (sync_channel 1)))) = RecvDisconnected.
Proof.
  intros H. unfold poller_thread_start.
  destruct (state_poller_start argv) as [| |pid]; try reflexivity.
  exfalso. exact (H pid eq_refl).
Qed.

(** The program name and first argument [prog 4x] where [4x] is the
    byte 0xff: not valid UTF-8. *)
Definition argv_bad_unicode : list (list byte) :=
  [list_byte_of_string "prog"; [xff]].

(** C10 (counterexample). With a first argument that is not valid UTF-8,
    no pid can be read from it, yet [state_poller] does not return an
    error: [std::env::args] panics. *)
Lemma C10_non_unicode_arg_panics :
  first_arg_ok argv_bad_unicode = false /\
  state_poller_start argv_bad_unicode = StartPanic.
Proof. split; reflexivity. Qed.

(** C10 (amended). If the first argument is missing or does not read as
    a [u32], no connection is attempted: [state_poller] returns the parse
    error when the program name and that argument are valid Unicode, and
    panics inside [std::env::args] when one of them is not; in every case the thread
    drops the sender and the consumer's [try_recv] answers
    [Disconnected]. *)
Theorem C10_bad_pid_closes_channel (argv : list (list byte)) :
  first_arg_ok argv = false ->
  (forall pid, state_poller_start argv <> StartConnect pid) /\
  (Forall (fun a => utf8_valid a = true) (firstn 2 argv) ->
     state_poller_start argv = StartErr) /\
  (~ Forall (fun a => utf8_valid a = true) (firstn 2 argv) ->
     state_poller_start argv = StartPanic) /\
  fst (try_recv (snd (poller_thread_start argv (sync_channel 1)))) = RecvDisconnected.
Proof.
  intros Hbad.
  assert (Hno : forall pid, state_poller_start argv <> StartConnect pid).
  { intros pid Heq. unfold state_poller_start, args_next in Heq.
    destruct argv as [|a0 [|a1 r]]; simpl in Heq, Hbad.
    - discriminate.
    - destruct (utf8_valid a0); discriminate.
    - destruct (utf8_valid a0); [|discriminate].
      destruct (utf8_valid a1); [|discriminate].
      simpl in Hbad. destruct (parse_u32 (string_of_list_byte a1)); discriminate. }
  split; [exact Hno|]. split.
  - intros Hv. unfold state_poller_start, args_next.
    destruct argv as [|a0 [|a1 r]]; simpl in *; [reflexivity|..].
    + inversion Hv as [|? ? Hv0 _]. rewrite Hv0. reflexivity.
    + inversion Hv as [|? ? Hv0 Hv1]. inversion Hv1 as [|? ? Hva1 _].
      rewrite Hv0, Hva1. rewrite Hva1 in Hbad. simpl in Hbad.
      destruct (parse_u32 (string_of_list_byte a1)); [discriminate|reflexivity].
  - split.
    + intros Hnv. unfold state_poller_start, args_next.
      destruct argv as [|a0 [|a1 r]]; simpl in *.
      * exfalso. apply Hnv. constructor.
      * destruct (utf8_valid a0) eqn:E0; [|reflexivity].
        exfalso. apply Hnv. constructor; [exact E0 | constructor].
      * destruct (utf8_valid a0) eqn:E0; [|reflexivity].
        destruct (utf8_valid a1) eqn:E1; [|reflexivity].
        exfalso. apply Hnv. constructor; [exact E0 | constructor; [exact E1 | constructor]].
    + apply poller_thread_start_closes. exact Hno.
Qed.

(** A first argument that is valid Unicode but not a number. *)
Definition argv_bad_number : list (list byte) :=
  [list_byte_of_string "prog"; list_byte_of_string "12ab"].

Lemma C10_bad_pid_closes_channel_witness :
  first_arg_ok argv_bad_number = false /\
  Forall (fun a => utf8_valid a = true) (firstn 2 argv_bad_number) /\
  state_poller_start argv_bad_number = StartErr /\
  fst (try_recv (snd (poller_thread_start argv_bad_number (sync_channel 1))))
    = RecvDisconnected /\
  first_arg_ok argv_bad_unicode = false /\
  ~ Forall (fun a => utf8_valid a = true) (firstn 2 argv_bad_unicode) /\
  state_poller_start argv_bad_unicode = StartPanic /\
  fst (try_recv (snd (poller_thread_start argv_bad_unicode (sync_channel 1))))
    = RecvDisconnected.
Proof.
  assert (Hv : Forall (fun a => utf8_valid a = true) (firstn 2 argv_bad_number)).
  { vm_compute. repeat constructor. }
  assert (Hnv : ~ Forall (fun a => utf8_valid a = true) (firstn 2 argv_bad_unicode)).
  { intros H. inversion H as [|x l _ H1]. inversion H1 as [|y l' Hy _].
    vm_compute in Hy. discriminate Hy. }
  destruct (C10_bad_pid_closes_channel argv_bad_number eq_refl) as (_ & He & _ & Hc).
  destruct (C10_bad_pid_closes_channel argv_bad_unicode eq_refl) as (_ & _ & Hp & Hc').
  split; [reflexivity|]. split; [exact Hv|]. split; [exact (He Hv)|]. split; [exact Hc|].
  split; [reflexivity|]. split; [exact Hnv|]. split; [exact (Hp Hnv) | exact Hc'].
Defined.

(* ------------------------------------------------------------------ *)
(** ** The poll loop (main.rs, lines 93-189)

    The poller task runs on a [LocalPool]. Between two of its polls the
    task waits at an await point of the current cycle of [update_graph]:
    - [AwaitStatuses]: the [node_statuses] request has been sent and its
      promise is awaited;
    - [AwaitLayout]: the description was built (synchronously) and
      [dot_to_svg] runs the child process;
    - [AwaitTimer]: the SVG was handed over by the blocking
      [sender.send(svg)] and [Timer::after(3000 ms)] is awaited.
    [Fresh] is a cycle whose future has not been polled yet: its first
    poll sends the [node_statuses] request and stops at the promise.

    Each iteration of [loop] builds a fresh [update] future and a fresh
    [cancelled] future and [futures::select!]s over them. [select!] polls
    its branches in a pseudo-random order at each poll and takes the first
    one that is ready; when [update] completes with [Ok], the loop body
    ends and the next iteration starts within the same poll of the task.
    When [cancelled] is taken, the pending [update] future is dropped and
    the loop breaks. *)

Inductive Wake := NotReady | ReadyOk | ReadyErr.

Inductive Stage := Fresh | AwaitStatuses | AwaitLayout | AwaitTimer.

(** What the poller does that is visible outside the task. *)
Inductive Action :=
| ReqStatuses     (* [state.node_statuses_request().send()] *)
| SpawnLayout     (* [dot_to_svg] starts the child *)
| Deliver         (* [sender.send(svg)] *)
| Disconnect.     (* [rpc_disconnect.await] *)

Inductive UpdPoll := UPending (st : Stage) | UDoneOk | UDoneErr.

(** One poll of the [update] future, given whether the operation it waits
    for has completed ([w]). *)
Definition poll_update (st : Stage) (w : Wake) : list Action * UpdPoll :=
  match st, w with
  | Fresh, _ => ([ReqStatuses], UPending AwaitStatuses)
  | AwaitStatuses, NotReady => ([], UPending AwaitStatuses)
  | AwaitStatuses, ReadyErr => ([], UDoneErr)
  | AwaitStatuses, ReadyOk => ([SpawnLayout], UPending AwaitLayout)
  | AwaitLayout, NotReady => ([], UPending AwaitLayout)
  | AwaitLayout, ReadyErr => ([], UDoneErr)
  | AwaitLayout, ReadyOk => ([Deliver], UPending AwaitTimer)
  | AwaitTimer, NotReady => ([], UPending AwaitTimer)
  | AwaitTimer, _ => ([], UDoneOk)
  end.

Inductive Round := RPending (st : Stage) | RLoop | RBreak | RFail.

(** One poll of the [select!]: [update_first] is the order [select!]
    picked for this poll, [cancelled] whether the token is cancelled. *)
Definition select_round (cancelled update_first : bool) (st : Stage) (w : Wake)
    : list Action * Round :=
  let via_update :=
    let (acts, r) := poll_update st w in
    (acts, match r with
           | UPending st' => if cancelled then RBreak else RPending st'
           | UDoneOk => RLoop
           | UDoneErr => RFail
           end) in
  if update_first then via_update
  else if cancelled then ([], RBreak) else via_update.

Inductive PollerState :=
| Cycling (st : Stage)
| Disconnecting
| Stopped
| Failed.

Definition round_state (r : Round) : PollerState :=
  match r with
  | RPending st => Cycling st
  | RLoop => Cycling Fresh
  | RBreak => Disconnecting
  | RFail => Failed
  end.

(** A poll of the task: whether the token is cancelled at that time,
    whether the awaited operation has completed, and the branch orders
    [select!] uses in this poll (a fresh cycle never completes in its
    first poll, so at most two [select!] polls happen per task poll). *)
Record Event := mkEvent {
  ev_cancelled : bool;
  ev_wake : Wake;
  ev_order : bool * bool
}.

Definition poller_step (s : PollerState) (ev : Event) : list Action * PollerState :=
  match s with
  | Cycling st =>
      let c := ev_cancelled ev in
      let (a1, r1) := select_round c (fst (ev_order ev)) st (ev_wake ev) in
      match r1 with
      | RLoop =>
          let (a2, r2) := select_round c (snd (ev_order ev)) Fresh NotReady in
          ((a1 ++ a2)%list, round_state r2)
      | _ => (a1, round_state r1)
      end
  | Disconnecting => ([Disconnect], Stopped)   (* then the 3000 ms grace wait *)
  | Stopped => ([], Stopped)
  | Failed => ([], Failed)
  end.

Fixpoint poller_run (s : PollerState) (evs : list Event) : list Action * PollerState :=
  match evs with
  | [] => ([], s)
  | ev :: r =>
      let (a, s') := poller_step s ev in
      let (a', s'') := poller_run s' r in
      ((a ++ a')%list, s'')
  end.

Lemma poller_run_stopped (evs : list Event) : poller_run Stopped evs = ([], Stopped).
Proof. induction evs as [|ev r IH]; simpl; [reflexivity|]. rewrite IH. reflexivity. Qed.

Lemma poller_run_disconnecting (evs : list Event) :
  poller_run Disconnecting evs =
    match evs with [] => ([], Disconnecting) | _ :: _ => ([Disconnect], Stopped) end.
Proof. destruct evs as [|ev r]; simpl; [reflexivity|]. rewrite poller_run_stopped. reflexivity. Qed.

(* ------------------------------------------------------------------ *)
(** ** Claims on cancellation *)

(** The events of a cycle cancelled while its status request is pending:
    the first poll starts the cycle, the second sees the token cancelled
    before the response, the third lets the disconnect proceed. *)
Definition events_cancel_midway : list Event :=
  [mkEvent false NotReady (true, true);
   mkEvent true NotReady (false, false);
   mkEvent true NotReady (false, false)].

(** C3 (counterexample). A cycle that has started (its [node_statuses]
    request is sent) is abandoned when cancellation is observed while it
    waits for the response: nothing is delivered, and the only remaining
    action is the disconnect. *)
Lemma C3_started_cycle_abandoned :
  poller_run (Cycling Fresh) events_cancel_midway = ([ReqStatuses; Disconnect], Stopped).
Proof. reflexivity. Qed.

(** C3 (amended). The race covers the whole cycle: at any poll of the
    poller task that sees the token cancelled, the loop leaves the cycle
    at once (towards the disconnect, or to [Failed] when that same poll
    also gets an error of the cycle). When the task is woken while a
    started cycle still waits at an await point (status request, layout
    child, 3000 ms timer), the cycle is dropped on the spot, with nothing
    done, and the loop proceeds to disconnect. *)
Theorem C3_cancellation_raced_at_every_await (st : Stage) (ev : Event) :
  ev_cancelled ev = true ->
  (snd (poller_step (Cycling st) ev) = Disconnecting \/
   snd (poller_step (Cycling st) ev) = Failed) /\
  (st <> Fresh -> ev_wake ev = NotReady ->
   poller_step (Cycling st) ev = ([], Disconnecting)).
Proof.
  destruct ev as [c w [o1 o2]]. simpl. intros ->.
  destruct st, w, o1, o2; simpl;
    (split; [now (left + right) | intros Hst Hw; try discriminate Hw;
                                  try reflexivity; now contradiction Hst]).
Qed.

Lemma C3_cancellation_raced_at_every_await_witness :
  ev_cancelled (mkEvent true NotReady (true, false)) = true /\
  (snd (poller_step (Cycling AwaitLayout) (mkEvent true NotReady (true, false))) = Disconnecting \/
   snd (poller_step (Cycling AwaitLayout) (mkEvent true NotReady (true, false))) = Failed) /\
  (AwaitLayout <> Fresh -> ev_wake (mkEvent true NotReady (true, false)) = NotReady ->
   poller_step (Cycling AwaitLayout) (mkEvent true NotReady (true, false)) = ([], Disconnecting)).
Proof.
  split; [reflexivity|].
  apply C3_cancellation_raced_at_every_await. reflexivity.
Defined.




(* ================================================================== *)
(** * Further properties of the code *)

(* ------------------------------------------------------------------ *)
(** ** The status map of a cycle *)

(** The status of [k] that the map keeps: the last one in the list. *)
Definition last_status (k : string) (l : list NodeStatus) : option NodeStatus :=
  fold_left (fun acc s => if String.eqb (node_name s) k then Some s else acc) l None.

Lemma fold_insert_lookup (l : list NodeStatus) : forall (m : gmap string NodeStatus) k,
  fold_left (fun m s => <[node_name s := s]> m) l m !! k =
  fold_left (fun acc s => if String.eqb (node_name s) k then Some s else acc) l (m !! k).
Proof.
  induction l as [|s r IH]; intros m k; simpl; [reflexivity|].
  rewrite IH. f_equal.
  destruct (String.eqb (node_name s) k) eqn:E.
  - apply String.eqb_eq in E. subst k. apply lookup_insert_eq.
  - apply String.eqb_neq in E. apply lookup_insert_ne. exact E.
Qed.

(** The map built from the status list answers, for each name, the last
    status of that name in the list, and nothing for a name that does not
    report. *)
Theorem collect_statuses_lookup (l : list NodeStatus) (k : string) :
  collect_statuses l !! k = last_status k l.
Proof. unfold collect_statuses, last_status. rewrite fold_insert_lookup. reflexivity. Qed.

(* ------------------------------------------------------------------ *)
(** ** When the description is produced *)

(** An endpoint of an edge whose node reports a counter list too short
    for the port index. *)
Definition endpoint_short (m : gmap string NodeStatus) (name : string)
    (sel : NodeStatus -> list N) (idx : N) : Prop :=
  exists st, m !! name = Some st /\ length (sel st) <= N.to_nat idx.

Definition edge_short (m : gmap string NodeStatus) (e : Edge) : Prop :=
  endpoint_short m (tail_name e) output_written (tail_index e) \/
  endpoint_short m (head_name e) input_read (head_index e).

Lemma endpoint_counter_None (m : gmap string NodeStatus) name sel idx :
  endpoint_counter m name sel idx = None <-> endpoint_short m name sel idx.
Proof.
  unfold endpoint_counter, endpoint_short, list_get.
  destruct (m !! name) as [st|].
  - destruct (nth_error (sel st) (N.to_nat idx)) as [n|] eqn:E.
    + split; [discriminate|]. intros (st' & Hst & Hlen). injection Hst as <-.
      apply nth_error_None in Hlen. congruence.
    + split; [|reflexivity]. intros _. exists st. split; [reflexivity|].
      apply nth_error_None. exact E.
  - split; [discriminate|]. intros (st' & Hst & _). discriminate.
Qed.

Lemma write_edge_None (m : gmap string NodeStatus) (e : Edge) :
  write_edge m e = None <-> edge_short m e.
Proof.
  unfold write_edge, edge_short. rewrite <- !endpoint_counter_None.
  destruct (endpoint_counter m (tail_name e) output_written (tail_index e));
  destruct (endpoint_counter m (head_name e) input_read (head_index e));
  intuition congruence.
Qed.

Lemma write_edges_None (m : gmap string NodeStatus) (es : list Edge) :
  write_edges m es = None <-> Exists (edge_short m) es.
Proof.
  induction es as [|e r IH]; simpl.
  - split; [discriminate | intros H; inversion H].
  - rewrite Exists_cons, <- IH, <- write_edge_None.
    destruct (write_edge m e); [|tauto].
    destruct (write_edges m r); intuition congruence.
Qed.

(** Building the description panics exactly when some edge has an
    endpoint whose node reports a counter list too short for the port
    index; in every other case the description is produced. *)
Theorem build_description_panics_iff (g : Graph) (l : list NodeStatus) :
  build_description g l = None <->
  Exists (edge_short (collect_statuses l)) (graph_edges g).
Proof.
  unfold build_description. rewrite <- write_edges_None.
  destruct (write_edges (collect_statuses l) (graph_edges g)); intuition congruence.
Qed.

Lemma write_edges_empty (es : list Edge) :
  write_edges ∅ es = Some (cat (map (fun e => edge_stmt e []) es)).
Proof.
  induction es as [|e r IH]; simpl; [reflexivity|].
  unfold write_edge, endpoint_counter. rewrite !lookup_empty. simpl.
  rewrite IH. reflexivity.
Qed.

(** With an empty snapshot (no node reporting), the description is always
    produced, and every edge statement has an empty attribute list: no
    label at all. *)
Theorem build_description_no_status (g : Graph) :
  build_description g [] =
    Some ("digraph G {" ++ nl ++ write_nodes (graph_nodes g) ++
          cat (map (fun e => edge_stmt e []) (graph_edges g)) ++ "}" ++ nl).
Proof. unfold build_description. simpl. rewrite write_edges_empty. reflexivity. Qed.

(* ------------------------------------------------------------------ *)
(** ** UTF-8 decoding and the output of dot_to_svg *)

Lemma utf8_conts_true (k : nat) : forall r acc j,
  utf8_conts k r acc = (true, j) -> j = acc + k /\ k <= length r.
Proof.
  induction k as [|k IH]; intros r acc j H; simpl in H.
  - injection H as <-. lia.
  - destruct r as [|b r']; [discriminate|].
    destruct (byte_in b 128 191); [|discriminate].
    destruct (IH r' (S acc) j H) as [-> Hl]. simpl. lia.
Qed.

Lemma utf8_multi_true (lo hi k : nat) (r : list byte) j :
  utf8_multi lo hi k r = (true, j) -> j = 2 + k /\ S k <= length r.
Proof.
  unfold utf8_multi. destruct r as [|b1 r1]; [discriminate|].
  destruct (byte_in b1 lo hi); [|discriminate].
  intros H. destruct (utf8_conts_true k r1 2 j H) as [-> Hl]. simpl. lia.
Qed.

Lemma utf8_chunk_true (bs : list byte) (k : nat) :
  utf8_chunk bs = Some (true, k) -> 1 <= k <= length bs.
Proof.
  destruct bs as [|b r]; simpl; [discriminate|].
  intros H. injection H as H.
  repeat match type of H with
         | context [if ?c then _ else _] => destruct c
         end;
  first [ injection H as <-; simpl; lia
        | discriminate
        | apply utf8_multi_true in H; simpl; lia ].
Qed.

Lemma lossy_aux_valid (fuel : nat) : forall bs,
  length bs <= fuel -> valid_aux fuel bs = true -> lossy_aux fuel bs = bs.
Proof.
  induction fuel as [|f IH]; intros bs Hlen Hv.
  - destruct bs; [reflexivity | simpl in Hlen; lia].
  - simpl in Hv |- *.
    destruct (utf8_chunk bs) as [[[|] k]|] eqn:Hc.
    + destruct (utf8_chunk_true bs k Hc) as [Hk1 Hk2].
      rewrite IH; [apply take_drop | rewrite length_drop; lia | exact Hv].
    + discriminate.
    + destruct bs as [|b r]; [reflexivity | discriminate].
Qed.

(** [String::from_utf8_lossy] leaves valid UTF-8 unchanged. *)
Lemma from_utf8_lossy_valid (bs : list byte) :
  utf8_valid bs = true -> from_utf8_lossy bs = string_of_list_byte bs.
Proof.
  unfold from_utf8_lossy, utf8_valid. intros Hv.
  rewrite lossy_aux_valid; [reflexivity | lia | exact Hv].
Qed.

(** When [dot] starts and exits with status 0 writing valid UTF-8 on its
    standard output, [dot_to_svg] returns exactly that output, whatever
    [dot] writes on its standard error (which goes to the client's
    terminal). *)
Theorem dot_to_svg_success (env : DotEnv) (src : string) :
  dot_found env = true ->
  child_exit (dot_run env (list_byte_of_string src)) = Some 0%Z ->
  utf8_valid (child_out (dot_run env (list_byte_of_string src))) = true ->
  dot_to_svg env src =
    (inl (string_of_list_byte (child_out (dot_run env (list_byte_of_string src)))),
     child_err (dot_run env (list_byte_of_string src))).
Proof.
  intros Hf Hx Hv. unfold dot_to_svg. rewrite Hf, Hx. simpl.
  rewrite from_utf8_lossy_valid by exact Hv. reflexivity.
Qed.

(** A [dot] that succeeds and prints a small SVG on stdout and a warning
    on stderr. *)
Definition dot_env_ok : DotEnv :=
  mkDotEnv true (fun _ => mkChildRun (Some 0%Z) (list_byte_of_string "<svg/>")
                                     (list_byte_of_string "warning")).

Lemma dot_to_svg_success_witness :
  dot_found dot_env_ok = true /\
  child_exit (dot_run dot_env_ok (list_byte_of_string description_AB)) = Some 0%Z /\
  utf8_valid (child_out (dot_run dot_env_ok (list_byte_of_string description_AB))) = true /\
  dot_to_svg dot_env_ok description_AB =
    (inl (string_of_list_byte (child_out (dot_run dot_env_ok (list_byte_of_string description_AB)))),
     child_err (dot_run dot_env_ok (list_byte_of_string description_AB))).
Proof.
  split; [reflexivity|]. split; [reflexivity|]. split; [vm_compute; reflexivity|].
  apply dot_to_svg_success; [reflexivity | reflexivity | vm_compute; reflexivity].
Defined.


(* ------------------------------------------------------------------ *)
(** ** Order of delivery through the channel *)

(** What one operation hands over: the message a [send] puts in the
    channel, the message a [try_recv] takes out. *)
Definition op_log {A} (c : Chan A) (op : @ChanOp A) : list A * list A :=
  match op with
  | OpSend x =>
      if ch_sender c then
        match send c x with SendOk _ => ([x], []) | _ => ([], []) end
      else ([], [])
  | OpTryRecv =>
      match try_recv c with (RecvItem y, _) => ([], [y]) | _ => ([], []) end
  | _ => ([], [])
  end.

Fixpoint run_ops_log {A} (c : Chan A) (ops : list (@ChanOp A)) : list A * list A :=
  match ops with
  | [] => ([], [])
  | op :: r =>
      let (s1, r1) := op_log c op in
      let (s2, r2) := run_ops_log (apply_op c op) r in
      ((s1 ++ s2)%list, (r1 ++ r2)%list)
  end.

Lemma op_log_fifo {A} (c : Chan A) (op : @ChanOp A) :
  (ch_buf c ++ fst (op_log c op))%list = (snd (op_log c op) ++ ch_buf (apply_op c op))%list.
Proof.
  destruct op as [x| | |]; simpl; try (rewrite app_nil_r; reflexivity).
  - destruct (ch_sender c); simpl; [|rewrite app_nil_r; reflexivity].
    unfold send. destruct (ch_receiver c); simpl; [|rewrite app_nil_r; reflexivity].
    destruct (Nat.ltb (length (ch_buf c)) (ch_bound c)); simpl;
      [reflexivity | rewrite app_nil_r; reflexivity].
  - unfold try_recv. destruct (ch_buf c) as [|y r] eqn:Hb; [destruct (ch_sender c)|];
      simpl; rewrite ?Hb, ?app_nil_r; reflexivity.
Qed.

(** Whatever the producer and the consumer do, the channel is first in,
    first out and loses nothing: what was buffered at the start followed
    by every message a [send] put in equals every message [try_recv]
    returned followed by what is still buffered. In particular, from a new
    channel, the consumer receives a prefix of the sent messages, in the
    order they were sent. *)
Theorem channel_fifo {A} (ops : list (@ChanOp A)) : forall (c : Chan A),
  (ch_buf c ++ fst (run_ops_log c ops))%list =
  (snd (run_ops_log c ops) ++ ch_buf (run_ops c ops))%list.
Proof.
  unfold run_ops. induction ops as [|op r IH]; intros c; simpl.
  - rewrite app_nil_r. reflexivity.
  - pose proof (op_log_fifo c op) as H.
    destruct (op_log c op) as [s1 r1]. simpl in H.
    specialize (IH (apply_op c op)).
    destruct (run_ops_log (apply_op c op) r) as [s2 r2]. simpl in *.
    rewrite app_assoc, H, <- app_assoc, IH, app_assoc. reflexivity.
Qed.

(* ------------------------------------------------------------------ *)
(** ** Order of the poller's actions *)

Definition action_eqb (a b : Action) : bool :=
  match a, b with
  | ReqStatuses, ReqStatuses | SpawnLayout, SpawnLayout
  | Deliver, Deliver | Disconnect, Disconnect => true
  | _, _ => false
  end.

(** The action that follows [a] in a cycle. *)
Definition next_action (a : Action) : Action :=
  match a with
  | ReqStatuses => SpawnLayout
  | SpawnLayout => Deliver
  | Deliver => ReqStatuses
  | Disconnect => Disconnect
  end.

(** [acts] repeats request, layout, delivery from the expected action
    [exp] on, possibly cut short, and may end with one disconnect. *)
Fixpoint cycle_order (exp : Action) (acts : list Action) : bool :=
  match acts with
  | [] => true
  | a :: r =>
      (action_eqb a exp && cycle_order (next_action exp) r) ||
      (action_eqb a Disconnect && match r with [] => true | _ => false end)
  end.

(** The next cycle action expected in each state of the loop. *)
Definition expected_action (st : Stage) : Action :=
  match st with
  | Fresh | AwaitTimer => ReqStatuses
  | AwaitStatuses => SpawnLayout
  | AwaitLayout => Deliver
  end.

(** The actions a run from a state may still produce. *)
Definition rest_ok (s : PollerState) (acts : list Action) : bool :=
  match s with
  | Cycling st => cycle_order (expected_action st) acts
  | Disconnecting => match acts with [] | [Disconnect] => true | _ => false end
  | Stopped | Failed => match acts with [] => true | _ => false end
  end.

Lemma rest_ok_disconnecting_any (e : Action) (acts : list Action) :
  rest_ok Disconnecting acts = true -> cycle_order e acts = true.
Proof.
  destruct acts as [|a [|b r]]; simpl; intros H.
  - reflexivity.
  - destruct a; try discriminate H. apply orb_true_iff. right. reflexivity.
  - destruct a; discriminate H.
Qed.

Lemma rest_ok_stopped_any (e : Action) (acts : list Action) :
  rest_ok Stopped acts = true \/ rest_ok Failed acts = true -> cycle_order e acts = true.
Proof. destruct acts; simpl; intuition discriminate. Qed.

Lemma poller_step_order (s : PollerState) (ev : Event) (acts : list Action) :
  rest_ok (snd (poller_step s ev)) acts = true ->
  rest_ok s ((fst (poller_step s ev)) ++ acts)%list = true.
Proof.
  destruct ev as [c w [o1 o2]].
  destruct s as [st| | |];
    [| destruct acts; simpl; intuition discriminate
     | destruct acts; simpl; intuition discriminate
     | destruct acts; simpl; intuition discriminate].
  destruct st, c, w, o1, o2; simpl; intros H;
    repeat (rewrite ?orb_false_r;
            apply orb_true_intro; left; apply andb_true_intro; split; [reflexivity|]);
    rewrite ?orb_false_r;
    first [ exact H
          | apply rest_ok_disconnecting_any; exact H
          | apply rest_ok_stopped_any; auto ].
Qed.

(** From the start of the loop, the poller's visible actions follow the
    cycle order: a [node_statuses] request, the layout run, the delivery,
    and only then the next request, and so on (possibly cut short),
    followed by at most one disconnect and nothing after it. *)
Theorem poller_actions_in_cycle_order (evs : list Event) :
  cycle_order ReqStatuses (fst (poller_run (Cycling Fresh) evs)) = true.
Proof.
  change (rest_ok (Cycling Fresh) (fst (poller_run (Cycling Fresh) evs)) = true).
  generalize (Cycling Fresh) as s.
  induction evs as [|ev r IH]; intros s; simpl.
  - destruct s; reflexivity.
  - pose proof (poller_step_order s ev (fst (poller_run (snd (poller_step s ev)) r))
                  (IH (snd (poller_step s ev)))) as H.
    destruct (poller_step s ev) as [a s']. simpl in H.
    destruct (poller_run s' r) as [a' s'']. exact H.
Qed.

(* ------------------------------------------------------------------ *)
(** ** A failed cycle skips the disconnect

    [let () = res?;] returns the error of a cycle from the [async] block
    at once: [rpc_disconnect.await] and the grace wait are never reached. *)

Lemma poller_step_cycling_no_disconnect (st : Stage) (ev : Event) :
  ~ In Disconnect (fst (poller_step (Cycling st) ev)) /\
  (snd (poller_step (Cycling st) ev) = Failed \/
   snd (poller_step (Cycling st) ev) = Disconnecting \/
   exists st', snd (poller_step (Cycling st) ev) = Cycling st').
Proof.
  destruct ev as [c w [o1 o2]].
  destruct st, c, w, o1, o2; simpl;
    (split; [intuition discriminate | eauto]).
Qed.

Lemma poller_run_from_disconnecting_not_failed (evs : list Event) :
  snd (poller_run Disconnecting evs) <> Failed.
Proof. rewrite poller_run_disconnecting. destruct evs; discriminate. Qed.

Lemma poller_run_cons (s : PollerState) (ev : Event) (r : list Event) :
  poller_run s (ev :: r) =
    let (a, s') := poller_step s ev in
    let (a', s'') := poller_run s' r in ((a ++ a')%list, s'').
Proof. reflexivity. Qed.

Lemma poller_run_failed (evs : list Event) : poller_run Failed evs = ([], Failed).
Proof. induction evs as [|ev r IH]; simpl; [reflexivity|]. rewrite IH. reflexivity. Qed.

(** A run of the loop that ends in failure (an error of the status
    request or of the layout) never disconnects from the pipeline. *)
Theorem poller_failure_skips_disconnect (evs : list Event) : forall (st : Stage),
  snd (poller_run (Cycling st) evs) = Failed ->
  ~ In Disconnect (fst (poller_run (Cycling st) evs)).
Proof.
  induction evs as [|ev r IH]; intros st; [discriminate|].
  destruct (poller_step_cycling_no_disconnect st ev) as [Hno Hs].
  rewrite poller_run_cons.
  destruct (poller_step (Cycling st) ev) as [a s'] eqn:Hstep. simpl in Hno, Hs.
  destruct Hs as [-> | [-> | [st' ->]]].
  - rewrite poller_run_failed. simpl. rewrite app_nil_r. intros _. exact Hno.
  - intros Hf. exfalso. apply (poller_run_from_disconnecting_not_failed r).
    destruct (poller_run Disconnecting r). exact Hf.
  - specialize (IH st').
    destruct (poller_run (Cycling st') r) as [a' s'']. simpl in *.
    intros Hf Hin. apply in_app_or in Hin. destruct Hin as [Hin|Hin]; [exact (Hno Hin)|].
    exact (IH Hf Hin).
Qed.

(** The loop starts a cycle, and the status request then fails. *)
Definition events_rpc_error : list Event :=
  [mkEvent false NotReady (true, true); mkEvent false ReadyErr (true, true)].

Lemma poller_failure_skips_disconnect_witness :
  snd (poller_run (Cycling Fresh) events_rpc_error) = Failed /\
  ~ In Disconnect (fst (poller_run (Cycling Fresh) events_rpc_error)).
Proof.
  split; [reflexivity|].
  apply poller_failure_skips_disconnect. reflexivity.
Defined.

(* ------------------------------------------------------------------ *)
(** ** The frame update of SvgViewer (main.rs, lines 247-285)

    Instants are in seconds; [Instant - Instant] saturates at zero. The
    frame reads the clock twice: [now] for the close check (line 249) and
    [now'] when the channel is found disconnected (line 273). [has_cpu]
    stands for [frame.info().cpu_usage.is_some()]: without it the frame
    returns before looking at the channel. *)

Inductive ViewerCmd :=
| CloseCmd                 (* [ViewportCommand::Close] *)
| Repaint                  (* [request_repaint()] *)
| RepaintAfter (d : nat).  (* [request_repaint_after(d)] *)

(** The commands of one frame, the new viewer and channel, and whether the
    frame saw the channel disconnected. *)
Definition viewer_update (svg_parses : string -> bool) (now now' : nat) (has_cpu : bool)
    (v : Viewer) (c : Chan string) : list ViewerCmd * Viewer * Chan string * bool :=
  let cmds :=
    match v_close_at v with
    | Some at_ => if Nat.ltb at_ now then [CloseCmd] else [RepaintAfter (at_ - now)]
    | None => []
    end in
  if negb has_cpu then (cmds, v, c, false)
  else
    match try_recv c with
    | (RecvItem svg, c') =>
        ((cmds ++ [Repaint])%list,
         mkViewer (if svg_parses svg then Some svg else v_content v) (v_close_at v), c', false)
    | (RecvEmpty, c') => (cmds, v, c', false)
    | (RecvDisconnected, c') =>
        let at_ := match v_close_at v with Some t => t | None => now' + 60 end in
        ((cmds ++ [RepaintAfter (at_ - now')])%list, mkViewer (v_content v) (Some at_), c', true)
    end.

(** One frame: the channel operations done by the poller since the last
    frame, then the frame itself, with its two clock readings. *)
Record Frame := mkFrame {
  fr_ops : list (@ChanOp string);
  fr_now : nat;
  fr_now' : nat;
  fr_has_cpu : bool
}.

(** What each frame did: its two clock readings, its commands, and whether
    it saw the channel disconnected. *)
Fixpoint run_frames (svg_parses : string -> bool) (v : Viewer) (c : Chan string)
    (frames : list Frame) : list (nat * nat * list ViewerCmd * bool) :=
  match frames with
  | [] => []
  | f :: r =>
      let '(cmds, v', c', d) :=
        viewer_update svg_parses (fr_now f) (fr_now' f) (fr_has_cpu f) v
          (run_ops c (fr_ops f)) in
      (fr_now f, fr_now' f, cmds, d) :: run_frames svg_parses v' c' r
  end.

Lemma viewer_update_close_at svg_parses now now' has_cpu v c :
  let '(cmds, v', c', d) := viewer_update svg_parses now now' has_cpu v c in
  v_close_at v' = match v_close_at v with
                  | Some a => Some a
                  | None => if d then Some (now' + 60) else None
                  end /\
  (In CloseCmd cmds -> exists a, v_close_at v = Some a /\ a < now).
Proof.
  unfold viewer_update.
  assert (Hc : In CloseCmd (match v_close_at v with
                            | Some at_ => if Nat.ltb at_ now then [CloseCmd]
                                          else [RepaintAfter (at_ - now)]
                            | None => [] end) ->
               exists a, v_close_at v = Some a /\ a < now).
  { destruct (v_close_at v) as [a|]; simpl; [|contradiction].
    destruct (Nat.ltb a now) eqn:E; simpl; [|intuition discriminate].
    intros _. exists a. split; [reflexivity | apply Nat.ltb_lt; exact E]. }
  destruct has_cpu; simpl.
  - destruct (try_recv c) as [[svg| |] c'] eqn:Ht; simpl.
    + split; [destruct (v_close_at v); reflexivity|].
      intros H. apply in_app_or in H. destruct H as [H|[H|[]]]; [exact (Hc H) | discriminate].
    + split; [destruct (v_close_at v); reflexivity | exact Hc].
    + split; [destruct (v_close_at v); reflexivity|].
      intros H. apply in_app_or in H. destruct H as [H|[H|[]]]; [exact (Hc H) | discriminate].
  - split; [destruct (v_close_at v); reflexivity | exact Hc].
Qed.

(** With [cpu_usage] known, the frame changes the viewer and the channel
    as [viewer_receive] does at the second clock reading. *)
Lemma viewer_update_receive svg_parses now now' v c :
  let '(_, v', c', _) := viewer_update svg_parses now now' true v c in
  (v', c') = viewer_receive svg_parses now' v c.
Proof.
  unfold viewer_update, viewer_receive. simpl.
  destruct (try_recv c) as [[svg| |] c']; reflexivity.
Qed.

Lemma run_frames_close_from (svg_parses : string -> bool) (frames : list Frame) :
  forall v c k now now' cmds d,
  nth_error (run_frames svg_parses v c frames) k = Some (now, now', cmds, d) ->
  In CloseCmd cmds ->
  (exists a, v_close_at v = Some a /\ a < now) \/
  (exists j t t' cmds', j < k /\
     nth_error (run_frames svg_parses v c frames) j = Some (t, t', cmds', true) /\
     t' + 60 < now).
Proof.
  induction frames as [|f r IH]; intros v c k now now' cmds d H Hin;
    [destruct k; discriminate|].
  simpl in H |- *.
  pose proof (viewer_update_close_at svg_parses (fr_now f) (fr_now' f) (fr_has_cpu f) v
                (run_ops c (fr_ops f))) as Hupd.
  destruct (viewer_update svg_parses (fr_now f) (fr_now' f) (fr_has_cpu f) v
              (run_ops c (fr_ops f)))
    as [[[cmds0 v'] c'] d0].
  destruct Hupd as [Hclose Hcmd].
  destruct k as [|k]; simpl in H.
  - inversion H; subst. left. exact (Hcmd Hin).
  - destruct (IH v' c' k now now' cmds d H Hin)
      as [[a [Ha Hlt]] | [j [t [t' [cmds' [Hj [Hn Ht]]]]]]].
    + rewrite Hclose in Ha. destruct (v_close_at v) as [a0|].
      * left. exists a0. inversion Ha; subst. split; [reflexivity | exact Hlt].
      * destruct d0; [|discriminate]. inversion Ha; subst.
        right. exists 0, (fr_now f), (fr_now' f), cmds0.
        split; [lia|]. split; [reflexivity | lia].
    + right. exists (S j), t, t', cmds'. split; [lia|]. split; [exact Hn | exact Ht].
Qed.

(** From a viewer with no close time set, the window is closed only at a
    frame whose close check comes more than 60 seconds after an earlier
    frame found the poller's channel disconnected. *)
Theorem viewer_close_after_grace (svg_parses : string -> bool) (content : option string)
    (c : Chan string) (frames : list Frame) (k now now' : nat) (cmds : list ViewerCmd)
    (d : bool) :
  nth_error (run_frames svg_parses (mkViewer content None) c frames) k =
    Some (now, now', cmds, d) ->
  In CloseCmd cmds ->
  exists j t t' cmds', j < k /\
    nth_error (run_frames svg_parses (mkViewer content None) c frames) j =
      Some (t, t', cmds', true) /\
    t' + 60 < now.
Proof.
  intros H Hin.
  destruct (run_frames_close_from svg_parses frames _ c k now now' cmds d H Hin)
    as [[a [Ha _]] | Hr]; [discriminate | exact Hr].
Qed.

(** The poller ends before the frame at second 10, which sees the channel
    closed; the frame at second 71 closes the window. *)
Definition frames_poller_ends : list Frame :=
  [mkFrame [OpDropSender] 10 10 true; mkFrame [] 40 40 true; mkFrame [] 71 71 true].

Lemma viewer_close_after_grace_witness :
  nth_error (run_frames (fun _ => true) (mkViewer None None) (sync_channel 1)
               frames_poller_ends) 2 = Some (71, 71, [CloseCmd; RepaintAfter 0], true) /\
  exists j t t' cmds', j < 2 /\
    nth_error (run_frames (fun _ => true) (mkViewer None None) (sync_channel 1)
                 frames_poller_ends) j = Some (t, t', cmds', true) /\
    t' + 60 < 71.
Proof.
  split; [reflexivity|].
  apply (viewer_close_after_grace (fun _ => true) None (sync_channel 1)
           frames_poller_ends 2 71 71 [CloseCmd; RepaintAfter 0] true);
    [reflexivity | simpl; left; reflexivity].
Defined.

Lemma viewer_update_due svg_parses now now' has_cpu v c a :
  v_close_at v = Some a -> a < now ->
  let '(cmds, _, _, _) := viewer_update svg_parses now now' has_cpu v c in
  In CloseCmd cmds.
Proof.
  intros Ha Hlt. unfold viewer_update. rewrite Ha.
  apply Nat.ltb_lt in Hlt. rewrite Hlt.
  destruct has_cpu; simpl; [|left; reflexivity].
  destruct (try_recv c) as [[svg| |] c']; simpl; left; reflexivity.
Qed.

Lemma run_frames_due (svg_parses : string -> bool) (frames : list Frame) :
  forall v c a k now now' cmds d,
  v_close_at v = Some a ->
  nth_error (run_frames svg_parses v c frames) k = Some (now, now', cmds, d) ->
  a < now -> In CloseCmd cmds.
Proof.
  induction frames as [|f r IH]; intros v c a k now now' cmds d Ha H Hlt;
    [destruct k; discriminate|].
  simpl in H.
  pose proof (viewer_update_close_at svg_parses (fr_now f) (fr_now' f) (fr_has_cpu f) v
                (run_ops c (fr_ops f))) as Hupd.
  pose proof (viewer_update_due svg_parses (fr_now f) (fr_now' f) (fr_has_cpu f) v
                (run_ops c (fr_ops f)) a Ha) as Hdue.
  destruct (viewer_update svg_parses (fr_now f) (fr_now' f) (fr_has_cpu f) v
              (run_ops c (fr_ops f)))
    as [[[cmds0 v'] c'] d0].
  destruct Hupd as [Hclose _]. rewrite Ha in Hclose.
  destruct k as [|k]; simpl in H.
  - inversion H; subst. exact (Hdue Hlt).
  - exact (IH v' c' a k now now' cmds d Hclose H Hlt).
Qed.

(** From a viewer with no close time set: if frame [j] is the first frame
    to find the poller's channel disconnected, at its second clock reading
    [t'], then every later frame whose close check comes after [t' + 60]
    closes the window. *)
Theorem viewer_closes_when_due (svg_parses : string -> bool) (frames : list Frame) :
  forall (content : option string) (c : Chan string) (j k : nat) (t t' now now' : nat)
    (cmds' cmds : list ViewerCmd) (d : bool),
  Forall (fun e => snd e = false)
    (firstn j (run_frames svg_parses (mkViewer content None) c frames)) ->
  nth_error (run_frames svg_parses (mkViewer content None) c frames) j =
    Some (t, t', cmds', true) ->
  j < k ->
  nth_error (run_frames svg_parses (mkViewer content None) c frames) k =
    Some (now, now', cmds, d) ->
  t' + 60 < now ->
  In CloseCmd cmds.
Proof.
  induction frames as [|f r IH]; intros content c j k t t' now now' cmds' cmds d Hfirst Hj Hjk Hk Hlt;
    [destruct j; discriminate|].
  simpl in Hfirst, Hj, Hk.
  pose proof (viewer_update_close_at svg_parses (fr_now f) (fr_now' f) (fr_has_cpu f)
                (mkViewer content None) (run_ops c (fr_ops f))) as Hupd.
  destruct (viewer_update svg_parses (fr_now f) (fr_now' f) (fr_has_cpu f)
              (mkViewer content None) (run_ops c (fr_ops f)))
    as [[[cmds0 v'] c'] d0].
  destruct Hupd as [Hclose _]. simpl in Hclose.
  destruct k as [|k]; [lia|]. simpl in Hk.
  destruct j as [|j].
  - simpl in Hj. inversion Hj; subst.
    exact (run_frames_due svg_parses r v' c' (fr_now' f + 60) k now now' cmds d
             Hclose Hk Hlt).
  - simpl in Hfirst, Hj. inversion Hfirst as [|x l Hd0 Hrest]; subst. simpl in Hd0.
    subst d0. destruct v' as [content' close'']. simpl in Hclose. subst close''.
    apply (IH content' c' j k t t' now now' cmds' cmds d Hrest Hj); [lia | exact Hk | exact Hlt].
Qed.

Lemma viewer_closes_when_due_witness :
  In CloseCmd [CloseCmd; RepaintAfter 0].
Proof.
  apply (viewer_closes_when_due (fun _ => true) frames_poller_ends None (sync_channel 1)
           0 2 10 10 71 71 [RepaintAfter 60] [CloseCmd; RepaintAfter 0] true);
    [simpl; constructor | reflexivity | lia | reflexivity | lia].
Defined.
